(** * PopupMenuTable: declarative tables of popup-menu entries

  A shallow embedding of [src/widgets/PopupMenuTable.h]: the entry record
  and its classifier predicates, the table with its lazily populated entry
  vector, and the macros that write a [Populate()] body. *)

From stdpp Require Import base numbers list strings.

Local Open Scope Z_scope.

(** ** Types that the header only names *)

(** Modelled from the spec: [TranslatableString] is declared in
  [Internat.h], which is not part of the sources at hand; the spec calls it
  "a localizable label".  The label is its message text, and the
  value-initialised label [{}] is the empty text. *)
Definition TranslatableString : Type := string.

(** Modelled from the spec: [Identifier] comes from a header that is not
  part of the sources at hand; it is an opaque name. *)
Definition Identifier : Type := string.

(** A pointer to a member function: the class it is taken from and the
  member's name, as in [&My::memFn]. *)
Record MemFn : Type := MkMemFn { mf_class : string; mf_name : string }.

(** [wxCommandEventFunction] is a pointer to member; [None] is [nullptr]. *)
Definition wxCommandEventFunction : Type := option MemFn.

(** [PopupMenuTable *]: the address of a table object, [None] is [nullptr]. *)
Definition address : Type := N.
Definition PopupMenuTable_ptr : Type := option address.

Definition nullptr {A : Type} : option A := None.

(** What a [throw] carries. *)
Definition exception : Type := string.

(** ** struct PopupMenuTableEntry *)

Module PopupMenuTableEntry.

(** [enum Type { Item, RadioItem, CheckItem, Separator, SubMenu, Invalid }] *)
Inductive Type_ : Set :=
| Item | RadioItem | CheckItem | Separator | SubMenu | Invalid.

#[global] Instance Type_eq_dec : EqDecision Type_.
Proof. solve_decision. Defined.

Record t : Type := Build {
  type : Type_;
  id : Z;
  caption : TranslatableString;
  func : wxCommandEventFunction;
  subTable : PopupMenuTable_ptr
}.

(** The constructor with its member-initialiser list. *)
Definition PopupMenuTableEntry
    (type_ : Type_) (id_ : Z) (caption_ : TranslatableString)
    (func_ : wxCommandEventFunction) (subTable_ : PopupMenuTable_ptr) : t :=
  {| type := type_;
     id := id_;
     caption := caption_;
     func := func_;
     subTable := subTable_ |}.

(** [type == Item || type == RadioItem || type == CheckItem] *)
Definition IsItem (e : t) : bool :=
  bool_decide (type e = Item)
  || bool_decide (type e = RadioItem)
  || bool_decide (type e = CheckItem).

(** [type == SubMenu] *)
Definition IsSubMenu (e : t) : bool := bool_decide (type e = SubMenu).

(** [type != Invalid] *)
Definition IsValid (e : t) : bool := negb (bool_decide (type e = Invalid)).

End PopupMenuTableEntry.

(** [using Entry = PopupMenuTableEntry;] *)
Module Entry := PopupMenuTableEntry.

(** [using Entries = std::vector<PopupMenuTableEntry>;] *)
Definition Entries : Type := list Entry.t.

(** ** class PopupMenuTable *)

(** The data members.  The [wxEvtHandler] base belongs to the toolkit and
  carries nothing the header's own code reads. *)
Record PopupMenuTable : Type := MkTable {
  mContents : Entries;
  mCaption : TranslatableString
}.

(** [PopupMenuTable(const Identifier &id, const TranslatableString &caption)
    : mCaption{ caption } {}]; [mContents] is default-initialised. *)
Definition PopupMenuTable_ctor
    (id : Identifier) (caption : TranslatableString) : PopupMenuTable :=
  {| mContents := []; mCaption := caption |}.

(** [mContents.push_back(e)] *)
Definition push_back (e : Entry.t) (this : PopupMenuTable) : PopupMenuTable :=
  {| mContents := mContents this ++ [e]; mCaption := mCaption this |}.

(** [mContents.empty()] *)
Definition empty (v : Entries) : bool :=
  match v with [] => true | _ :: _ => false end.

(** The result of running a member function: what it returns or throws, the
  object afterwards, and how many times the run dispatched to the virtual
  [Populate()].  An exception leaves the object as the throwing code left
  it.  Failure of allocation is not modelled. *)
Record Outcome (A : Type) : Type := MkOutcome {
  res : exception + A;
  obj : PopupMenuTable;
  populate_calls : nat
}.
Arguments MkOutcome {A} _ _ _.
Arguments res {A} _.
Arguments obj {A} _.
Arguments populate_calls {A} _.

(** [const TranslatableString &Caption() const { return mCaption; }] *)
Definition Caption (this : PopupMenuTable) : TranslatableString :=
  mCaption this.

(** [void Clear() { mContents.clear(); }] *)
Definition Clear (this : PopupMenuTable) : PopupMenuTable :=
  {| mContents := []; mCaption := mCaption this |}.

(** The body of a [Populate()] override: given the object, whether it throws
  and the object it leaves.  The members are protected, so an override may
  write either of them. *)
Definition PopulateBody : Type :=
  PopupMenuTable -> option exception * PopupMenuTable.

(** The operations of a table and what they hand back. *)
Inductive Op : Set := OpGet | OpCaption | OpClear.

Inductive Value : Type :=
| VEntries (es : Entries)
| VCaption (c : TranslatableString)
| VVoid.

Section Table.

(** [virtual void Populate() = 0;] *)
Variable Populate : PopulateBody.

(** [const Entries& Get() { if (mContents.empty()) Populate();
                            return mContents; }] *)
Definition Get (this : PopupMenuTable) : Outcome Entries :=
  if empty (mContents this) then
    let '(thrown, this') := Populate this in
    match thrown with
    | Some e => MkOutcome (inl e) this' 1
    | None => MkOutcome (inr (mContents this')) this' 1
    end
  else MkOutcome (inr (mContents this)) this 0.

Definition run (o : Op) (this : PopupMenuTable) : Outcome Value :=
  match o with
  | OpGet =>
      let r := Get this in
      MkOutcome
        (match res r with inl e => inl e | inr es => inr (VEntries es) end)
        (obj r) (populate_calls r)
  | OpCaption => MkOutcome (inr (VCaption (Caption this))) this 0
  | OpClear => MkOutcome (inr VVoid) (Clear this) 0
  end.

(** A client making the calls one after another (catching what is thrown):
    the object after all of them. *)
Definition run_all (ops : list Op) (this : PopupMenuTable) : PopupMenuTable :=
  foldl (fun t o => obj (run o t)) this ops.

(** The values the calls handed back or threw, in order. *)
Fixpoint observe (ops : list Op) (this : PopupMenuTable)
    : list (exception + Value) :=
  match ops with
  | [] => []
  | o :: ops' => res (run o this) :: observe ops' (obj (run o this))
  end.

(** The states a table goes through: freshly constructed, then any of the
    operations. *)
Inductive reachable : PopupMenuTable -> Prop :=
| reach_ctor (id : Identifier) (caption : TranslatableString) :
    reachable (PopupMenuTable_ctor id caption)
| reach_step (o : Op) (this : PopupMenuTable) :
    reachable this -> reachable (obj (run o this)).

End Table.


(** ** The macros that write a Populate() body *)

(** The [classname] argument of [POPUP_MENU_SUB_MENU]: a class that derives
    from the table class and defines [Instance()].  What the macro uses of it
    is the object [classname::Instance()] and that object's address. *)
Record TableClass : Type := MkTableClass {
  Instance : PopupMenuTable;
  Instance_address : address
}.

(** The macro invocations that may stand between [BEGIN_POPUP_MENU] and
    [END_POPUP_MENU]. *)
Inductive MacroCall : Type :=
| POPUP_MENU_ITEM
    (stringId : string) (id : Z) (string_ : TranslatableString) (memFn : string)
| POPUP_MENU_RADIO_ITEM
    (stringId : string) (id : Z) (string_ : TranslatableString) (memFn : string)
| POPUP_MENU_CHECK_ITEM
    (stringId : string) (id : Z) (string_ : TranslatableString) (memFn : string)
| POPUP_MENU_SUB_MENU (stringId : string) (classname : TableClass)
| BEGIN_POPUP_MENU_SECTION (name : string)
| END_POPUP_MENU_SECTION.

(** The macros of the claim that append an entry. *)
Definition appending (m : MacroCall) : bool :=
  match m with
  | END_POPUP_MENU_SECTION => false
  | _ => true
  end.

Section Macros.

(** [using My = HandlerClass;] *)
Variable My : string.

(** [#define POPUP_MENU_APPEND(stringId, type, id, string, memFn, subTable)
      mContents.push_back( Entry { type, id, string, memFn, subTable } );] *)
Definition POPUP_MENU_APPEND
    (stringId : string) (type : Entry.Type_) (id : Z)
    (string_ : TranslatableString) (memFn : wxCommandEventFunction)
    (subTable : PopupMenuTable_ptr) : PopupMenuTable -> PopupMenuTable :=
  push_back (Entry.PopupMenuTableEntry type id string_ memFn subTable).

(** [#define POPUP_MENU_APPEND_ITEM(stringId, type, id, string, memFn)
      POPUP_MENU_APPEND( stringId, type, id, string,
        (wxCommandEventFunction) (&My::memFn), nullptr )] *)
Definition POPUP_MENU_APPEND_ITEM
    (stringId : string) (type : Entry.Type_) (id : Z)
    (string_ : TranslatableString) (memFn : string)
    : PopupMenuTable -> PopupMenuTable :=
  POPUP_MENU_APPEND stringId type id string_
    (Some (MkMemFn My memFn)) nullptr.

(** What each invocation expands to, as a statement on the object. *)
Definition expand (m : MacroCall) : PopupMenuTable -> PopupMenuTable :=
  match m with
  | POPUP_MENU_ITEM stringId id string_ memFn =>
      POPUP_MENU_APPEND_ITEM stringId Entry.Item id string_ memFn
  | POPUP_MENU_RADIO_ITEM stringId id string_ memFn =>
      POPUP_MENU_APPEND_ITEM stringId Entry.RadioItem id string_ memFn
  | POPUP_MENU_CHECK_ITEM stringId id string_ memFn =>
      POPUP_MENU_APPEND_ITEM stringId Entry.CheckItem id string_ memFn
  | POPUP_MENU_SUB_MENU stringId classname =>
      POPUP_MENU_APPEND stringId Entry.SubMenu (-1)
        (Caption (Instance classname)) nullptr
        (Some (Instance_address classname))
  | BEGIN_POPUP_MENU_SECTION name =>
      POPUP_MENU_APPEND "" Entry.Separator (-1) "" nullptr nullptr
  | END_POPUP_MENU_SECTION => fun this => this
  end.

(** [#define END_POPUP_MENU()
      POPUP_MENU_APPEND( "", Entry::Invalid, -1, {}, nullptr, nullptr ) }] *)
Definition END_POPUP_MENU : PopupMenuTable -> PopupMenuTable :=
  POPUP_MENU_APPEND "" Entry.Invalid (-1) "" nullptr nullptr.

(** The statements of a body, run in the order they are written. *)
Definition run_body (body : list MacroCall) (this : PopupMenuTable)
    : PopupMenuTable :=
  foldl (fun t m => expand m t) this body.

(** [BEGIN_POPUP_MENU(HandlerClass) body END_POPUP_MENU()]: the definition of
    [HandlerClass::Populate()].  Nothing in it throws. *)
Definition BEGIN_POPUP_MENU (body : list MacroCall) : PopulateBody :=
  fun this => (None, END_POPUP_MENU (run_body body this)).

(** The entries an invocation pushes, read off its expansion run on an
    empty vector. *)
Definition appended (m : MacroCall) : Entries :=
  mContents (expand m (MkTable [] "")).

(** The entries a body declares, in the order of its invocations. *)
Definition declared (body : list MacroCall) : Entries :=
  concat (map appended body).

End Macros.

(** The terminating entry [END_POPUP_MENU] writes. *)
Definition sentinel : Entry.t :=
  Entry.Build Entry.Invalid (-1) "" None None.


(** ** Building native menus *)

(** Modelled from the spec: [BuildMenu] and [ExtendMenu] are only declared
    in the header; their definitions and the toolkit's [wxMenu] are not part
    of the sources at hand.  The spec has build-menu "fold the entry list
    into calls against a native menu widget, registering callbacks against
    identifiers" in a "single-pass traversal" that preserves list order, and
    extend-menu "append a second table's entries to an already-built menu";
    an entry is "one row of a popup menu (item, radio item, check item,
    separator, or submenu reference)". *)
Inductive MenuRow : Type :=
| RowItem (id : Z) (label : TranslatableString)
| RowRadioItem (id : Z) (label : TranslatableString)
| RowCheckItem (id : Z) (label : TranslatableString)
| RowSeparator
| RowSubMenu (label : TranslatableString) (table : PopupMenuTable_ptr).

(** Modelled from the spec: the native menu widget, as the rows appended to
    it and the callbacks registered against identifiers, both in order. *)
Record Menu : Type := MkMenu {
  rows : list MenuRow;
  bound : list (Z * wxCommandEventFunction)
}.

(** Modelled from the spec: the call against the native menu that one entry
    is folded into.  The [Invalid] entry is no row of a menu. *)
Definition append_entry (menu : Menu) (e : Entry.t) : Menu :=
  match Entry.type e with
  | Entry.Item =>
      MkMenu (rows menu ++ [RowItem (Entry.id e) (Entry.caption e)])
             (bound menu ++ [(Entry.id e, Entry.func e)])
  | Entry.RadioItem =>
      MkMenu (rows menu ++ [RowRadioItem (Entry.id e) (Entry.caption e)])
             (bound menu ++ [(Entry.id e, Entry.func e)])
  | Entry.CheckItem =>
      MkMenu (rows menu ++ [RowCheckItem (Entry.id e) (Entry.caption e)])
             (bound menu ++ [(Entry.id e, Entry.func e)])
  | Entry.Separator => MkMenu (rows menu ++ [RowSeparator]) (bound menu)
  | Entry.SubMenu =>
      MkMenu (rows menu ++ [RowSubMenu (Entry.caption e) (Entry.subTable e)])
             (bound menu)
  | Entry.Invalid => menu
  end.

(** The rows one entry adds to a menu. *)
Definition row_of (e : Entry.t) : list MenuRow :=
  rows (append_entry (MkMenu [] []) e).

(** The callbacks one entry registers. *)
Definition bound_of (e : Entry.t) : list (Z * wxCommandEventFunction) :=
  bound (append_entry (MkMenu [] []) e).

Section Menus.

Variable Populate : PopulateBody.

(** Modelled from the spec: extend-menu queries the table and folds its
    entries, in list order, into appends to the given menu.  When the query
    throws, nothing has been appended. *)
Definition ExtendMenu (menu : Menu) (otherTable : PopupMenuTable)
    : Outcome Menu :=
  let r := Get Populate otherTable in
  match res r with
  | inl e => MkOutcome (inl e) (obj r) (populate_calls r)
  | inr es =>
      MkOutcome (inr (foldl append_entry menu es)) (obj r) (populate_calls r)
  end.

(** Modelled from the spec: build-menu is the same fold into a new, empty
    menu. *)
Definition BuildMenu (pTable : PopupMenuTable) : Outcome Menu :=
  ExtendMenu (MkMenu [] []) pTable.

End Menus.


(** ** Sequences of calls and the shape of macro-written entries *)

#[global] Instance Op_eq_dec : EqDecision Op.
Proof. solve_decision. Defined.

(** The dispatches to [Populate()] that a client's calls make, summed over
    the calls in order. *)
Fixpoint total_calls (Populate : PopulateBody) (ops : list Op)
    (this : PopupMenuTable) : nat :=
  match ops with
  | [] => 0%nat
  | o :: ops' =>
      (populate_calls (run Populate o this)
       + total_calls Populate ops' (obj (run Populate o this)))%nat
  end.

(** The shape the macros give an entry of handler class [My]: an item
    carries a member of [My] and no subtable; a submenu carries a subtable,
    no callback and id -1; anything that is no item carries no callback and
    id -1; anything that is no submenu carries no subtable. *)
Definition macro_shaped (My : string) (e : Entry.t) : Prop :=
  (Entry.IsItem e = true ->
   (exists memFn : string, Entry.func e = Some (MkMemFn My memFn))
   /\ Entry.subTable e = nullptr)
  /\ (Entry.IsSubMenu e = true ->
      Entry.func e = nullptr /\ Entry.id e = -1
      /\ exists a : address, Entry.subTable e = Some a)
  /\ (Entry.IsItem e = false -> Entry.func e = nullptr /\ Entry.id e = -1)
  /\ (Entry.IsSubMenu e = false -> Entry.subTable e = nullptr).


(** * Properties *)

(** ** Entries *)

Lemma IsItem_true (e : Entry.t) :
  Entry.IsItem e = true <->
  Entry.type e = Entry.Item \/ Entry.type e = Entry.RadioItem
  \/ Entry.type e = Entry.CheckItem.
Proof.
  unfold Entry.IsItem.
  rewrite !orb_true_iff, !bool_decide_eq_true. tauto.
Qed.

Lemma IsSubMenu_true (e : Entry.t) :
  Entry.IsSubMenu e = true <-> Entry.type e = Entry.SubMenu.
Proof. unfold Entry.IsSubMenu. apply bool_decide_eq_true. Qed.

Lemma IsValid_true (e : Entry.t) :
  Entry.IsValid e = true <-> Entry.type e <> Entry.Invalid.
Proof.
  unfold Entry.IsValid.
  rewrite negb_true_iff, bool_decide_eq_false. reflexivity.
Qed.

(** C4: the kind of an entry is one of the six tags, and the three
    classifier predicates decide them exactly: [IsItem] holds iff the kind is
    [Item], [RadioItem] or [CheckItem]; [IsSubMenu] iff it is [SubMenu];
    [IsValid] iff it is not [Invalid]. *)
Theorem classifiers_decide_kind (e : Entry.t) :
  Entry.type e ∈ [Entry.Item; Entry.RadioItem; Entry.CheckItem;
                  Entry.Separator; Entry.SubMenu; Entry.Invalid]
  /\ (Entry.IsItem e = true <->
      Entry.type e = Entry.Item \/ Entry.type e = Entry.RadioItem
      \/ Entry.type e = Entry.CheckItem)
  /\ (Entry.IsSubMenu e = true <-> Entry.type e = Entry.SubMenu)
  /\ (Entry.IsValid e = true <-> Entry.type e <> Entry.Invalid).
Proof.
  split; [| auto using IsItem_true, IsSubMenu_true, IsValid_true].
  destruct (Entry.type e); repeat constructor.
Qed.

(** C5: the entry constructor stores each of its five arguments, unchanged,
    in the field of the same name. *)
Theorem constructor_stores_arguments
    (type_ : Entry.Type_) (id_ : Z) (caption_ : TranslatableString)
    (func_ : wxCommandEventFunction) (subTable_ : PopupMenuTable_ptr) :
  let e := Entry.PopupMenuTableEntry type_ id_ caption_ func_ subTable_ in
  Entry.type e = type_
  /\ Entry.id e = id_
  /\ Entry.caption e = caption_
  /\ Entry.func e = func_
  /\ Entry.subTable e = subTable_.
Proof. cbn. repeat split. Qed.

(** ** Get, Caption and Clear *)

Section TableFacts.

Variable Populate : PopulateBody.

Lemma empty_true (v : Entries) : empty v = true <-> v = [].
Proof. destruct v; cbn; split; congruence. Qed.

Lemma empty_false (v : Entries) : empty v = false <-> v <> [].
Proof. destruct v; cbn; split; congruence. Qed.

Lemma Get_nonempty (this : PopupMenuTable) :
  mContents this <> [] ->
  Get Populate this = MkOutcome (inr (mContents this)) this 0.
Proof.
  intros Hne. unfold Get.
  apply empty_false in Hne. rewrite Hne. reflexivity.
Qed.

Lemma Get_empty (this : PopupMenuTable) :
  mContents this = [] ->
  Get Populate this =
    MkOutcome
      (match (Populate this).1 with
       | Some e => inl e
       | None => inr (mContents (Populate this).2)
       end)
      (Populate this).2 1.
Proof.
  intros He. unfold Get.
  apply empty_true in He. rewrite He.
  destruct (Populate this) as [[e|] this']; reflexivity.
Qed.

Lemma Get_returns_contents (this : PopupMenuTable) (es : Entries) :
  res (Get Populate this) = inr es ->
  mContents (obj (Get Populate this)) = es.
Proof.
  destruct (decide (mContents this = [])) as [He|Hne].
  - rewrite (Get_empty _ He). cbn.
    destruct (Populate this).1; congruence.
  - rewrite (Get_nonempty _ Hne). cbn. congruence.
Qed.

Lemma Get_calls (this : PopupMenuTable) :
  populate_calls (Get Populate this)
  = if empty (mContents this) then 1%nat else 0%nat.
Proof.
  unfold Get. destruct (empty (mContents this)); [| reflexivity].
  destruct (Populate this) as [[e|] this']; reflexivity.
Qed.

Lemma repeated_Get_fixed (this : PopupMenuTable) (n : nat) :
  mContents this <> [] ->
  run_all Populate (replicate n OpGet) this = this.
Proof.
  intros Hne. induction n as [|n IH]; [reflexivity|].
  cbn. rewrite (Get_nonempty _ Hne). exact IH.
Qed.

End TableFacts.

(** C1: [Get()] dispatches to [Populate()] exactly when [mContents] is
    empty.  On a non-empty vector it returns that vector, leaves the object
    as it is and does not dispatch; so once a call has returned a non-empty
    vector, every later call returns the same vector without populating
    again. *)
Theorem Get_populates_lazily (Populate : PopulateBody) (this : PopupMenuTable) :
  (populate_calls (Get Populate this) = 1%nat <-> mContents this = [])
  /\ (populate_calls (Get Populate this) = 0%nat <-> mContents this <> [])
  /\ (mContents this = [] ->
      obj (Get Populate this) = (Populate this).2)
  /\ (mContents this <> [] ->
      Get Populate this = MkOutcome (inr (mContents this)) this 0)
  /\ (forall es : Entries,
        res (Get Populate this) = inr es -> es <> [] ->
        forall n : nat,
          let later :=
            run_all Populate (replicate n OpGet) (obj (Get Populate this)) in
          later = obj (Get Populate this)
          /\ Get Populate later = MkOutcome (inr es) later 0).
Proof.
  split; [|split; [|split; [|split]]].
  - rewrite Get_calls, <- empty_true.
    destruct (empty (mContents this)); split; congruence.
  - rewrite Get_calls, <- empty_false.
    destruct (empty (mContents this)); split; congruence.
  - intros He. rewrite (Get_empty _ _ He). reflexivity.
  - apply Get_nonempty.
  - intros es Hres Hne n later.
    pose proof (Get_returns_contents _ _ _ Hres) as Hc.
    assert (Hfix : later = obj (Get Populate this)).
    { apply repeated_Get_fixed. rewrite Hc. exact Hne. }
    split; [exact Hfix|].
    rewrite Hfix, Get_nonempty; rewrite Hc; [reflexivity | exact Hne].
Qed.

(** C9: the table constructor does not use its [Identifier] argument: with
    the same caption, two identifiers give the same object (same caption,
    same empty vector), and every sequence of calls on the two returns the
    same values and leaves the same object. *)
Theorem constructor_ignores_Identifier
    (id1 id2 : Identifier) (c : TranslatableString) :
  PopupMenuTable_ctor id1 c = PopupMenuTable_ctor id2 c
  /\ Caption (PopupMenuTable_ctor id1 c) = c
  /\ Caption (PopupMenuTable_ctor id2 c) = c
  /\ mContents (PopupMenuTable_ctor id1 c) = []
  /\ mContents (PopupMenuTable_ctor id2 c) = []
  /\ (forall (Populate : PopulateBody) (ops : list Op),
        observe Populate ops (PopupMenuTable_ctor id1 c)
        = observe Populate ops (PopupMenuTable_ctor id2 c)
        /\ run_all Populate ops (PopupMenuTable_ctor id1 c)
           = run_all Populate ops (PopupMenuTable_ctor id2 c)).
Proof. repeat split. Qed.

(** C6: no operation changes or removes a single entry.  After [Get()],
    [Caption()] or [Clear()] either the vector is what it was, or it was
    empty and [Get()] populated it, or [Clear()] emptied it altogether; so an
    entry present before a call other than [Clear()] is present, unchanged
    and at the same index, after it.  After [Clear()] the next [Get()]
    dispatches to [Populate()] again. *)
Theorem entries_change_only_wholesale
    (Populate : PopulateBody) (o : Op) (this : PopupMenuTable) :
  let this' := obj (run Populate o this) in
  (mContents this' = mContents this
   \/ (o = OpGet /\ mContents this = []
       /\ mContents this' = mContents (Populate this).2)
   \/ (o = OpClear /\ mContents this' = []))
  /\ (o <> OpClear ->
      forall (i : nat) (e : Entry.t),
        mContents this !! i = Some e -> mContents this' !! i = Some e)
  /\ populate_calls (Get Populate (Clear this)) = 1%nat
  /\ obj (Get Populate (Clear this)) = (Populate (Clear this)).2.
Proof.
  assert (Hcase :
    mContents (obj (run Populate o this)) = mContents this
    \/ (o = OpGet /\ mContents this = []
        /\ mContents (obj (run Populate o this))
           = mContents (Populate this).2)
    \/ (o = OpClear /\ mContents (obj (run Populate o this)) = [])).
  { destruct o; cbn.
    - destruct (decide (mContents this = [])) as [He|Hne].
      + right; left. rewrite (Get_empty _ _ He). auto.
      + left. rewrite (Get_nonempty _ _ Hne). reflexivity.
    - left; reflexivity.
    - right; right. auto. }
  cbn zeta. split; [exact Hcase|]. split; [|split].
  - intros Hnc i e Hi.
    destruct Hcase as [Heq|[(_ & He & _)|(Hc & _)]].
    + rewrite Heq. exact Hi.
    + rewrite He in Hi. discriminate.
    + contradiction.
  - rewrite Get_calls. reflexivity.
  - rewrite Get_empty; reflexivity.
Qed.

(** ** Macro-written tables *)

Section MacroFacts.

Variable My : string.

Lemma expand_appended (m : MacroCall) (this : PopupMenuTable) :
  expand My m this
  = MkTable (mContents this ++ appended My m) (mCaption this).
Proof.
  destruct this as [v c].
  destruct m; cbn; try reflexivity.
  rewrite app_nil_r. reflexivity.
Qed.

Lemma appended_one (m : MacroCall) :
  appending m = true -> exists e : Entry.t, appended My m = [e].
Proof. destruct m; cbn; intros H; try discriminate; eauto. Qed.

Lemma appended_valid (m : MacroCall) :
  Forall (fun e => Entry.IsValid e = true) (appended My m).
Proof. destruct m; cbn; repeat constructor. Qed.

Lemma run_body_declared (body : list MacroCall) (this : PopupMenuTable) :
  run_body My body this
  = MkTable (mContents this ++ declared My body) (mCaption this).
Proof.
  unfold run_body, declared.
  revert this. induction body as [|m body IH]; intros this; cbn.
  - rewrite app_nil_r. destruct this; reflexivity.
  - rewrite IH, expand_appended. cbn. rewrite <- app_assoc. reflexivity.
Qed.

Lemma BEGIN_POPUP_MENU_declared (body : list MacroCall) (this : PopupMenuTable) :
  BEGIN_POPUP_MENU My body this
  = (None,
     MkTable (mContents this ++ declared My body ++ [sentinel])
             (mCaption this)).
Proof.
  unfold BEGIN_POPUP_MENU. rewrite run_body_declared. cbn.
  unfold END_POPUP_MENU, POPUP_MENU_APPEND, push_back. cbn.
  rewrite <- app_assoc. reflexivity.
Qed.

Lemma declared_valid (body : list MacroCall) :
  Forall (fun e => Entry.IsValid e = true) (declared My body).
Proof.
  unfold declared. induction body as [|m body IH]; cbn.
  - constructor.
  - apply Forall_app. split; [apply appended_valid | exact IH].
Qed.

Lemma declared_lookup (body : list MacroCall) :
  Forall (fun m => appending m = true) body ->
  length (declared My body) = length body
  /\ forall (i : nat) (m : MacroCall),
       body !! i = Some m ->
       exists e : Entry.t,
         declared My body !! i = Some e /\ appended My m = [e].
Proof.
  unfold declared. induction 1 as [|m body Hm _ [IHlen IH]]; cbn.
  - split; [reflexivity|]. intros i m Hi. discriminate.
  - destruct (appended_one m Hm) as [e He]. rewrite He. cbn.
    split; [congruence|].
    intros [|i] m' Hi; cbn in *.
    + injection Hi as <-. eauto.
    + apply IH, Hi.
Qed.

(** A macro-written table is either not populated or holds the declared
    entries followed by the sentinel. *)
Lemma macro_table_states (body : list MacroCall) (this : PopupMenuTable) :
  reachable (BEGIN_POPUP_MENU My body) this ->
  mContents this = [] \/ mContents this = declared My body ++ [sentinel].
Proof.
  induction 1 as [id c|o this Hr IH].
  - left; reflexivity.
  - destruct o; cbn.
    + destruct (decide (mContents this = [])) as [He|Hne].
      * right. rewrite (Get_empty _ _ He), BEGIN_POPUP_MENU_declared. cbn.
        rewrite He. reflexivity.
      * rewrite (Get_nonempty _ _ Hne). cbn.
        destruct IH; [contradiction | auto].
    + exact IH.
    + left; reflexivity.
Qed.

Lemma macro_Get (body : list MacroCall) (this : PopupMenuTable) :
  mContents this = [] \/ mContents this = declared My body ++ [sentinel] ->
  res (Get (BEGIN_POPUP_MENU My body) this)
  = inr (declared My body ++ [sentinel]).
Proof.
  intros [He|Hfull].
  - rewrite (Get_empty _ _ He), BEGIN_POPUP_MENU_declared. cbn.
    rewrite He. reflexivity.
  - rewrite Get_nonempty; rewrite Hfull; [reflexivity|].
    intros Hnil. apply app_eq_nil in Hnil as [_ Hnil]. discriminate.
Qed.

Lemma macro_run_caption (body : list MacroCall) (o : Op) (this : PopupMenuTable) :
  Caption (obj (run (BEGIN_POPUP_MENU My body) o this)) = Caption this.
Proof.
  destruct o; cbn; try reflexivity.
  destruct (decide (mContents this = [])) as [He|Hne].
  - rewrite (Get_empty _ _ He), BEGIN_POPUP_MENU_declared. reflexivity.
  - rewrite (Get_nonempty _ _ Hne). reflexivity.
Qed.

Lemma macro_run_all_caption (body : list MacroCall) (ops : list Op)
    (this : PopupMenuTable) :
  Caption (run_all (BEGIN_POPUP_MENU My body) ops this) = Caption this.
Proof.
  unfold run_all. revert this.
  induction ops as [|o ops IH]; intros this; cbn; [reflexivity|].
  rewrite IH. apply macro_run_caption.
Qed.

Lemma macro_observe_caption (body : list MacroCall) (ops : list Op)
    (this : PopupMenuTable) (c : TranslatableString) :
  inr (VCaption c) ∈ observe (BEGIN_POPUP_MENU My body) ops this ->
  c = Caption this.
Proof.
  revert this. induction ops as [|o ops IH]; intros this; cbn.
  - intros H. inversion H.
  - intros H. apply elem_of_cons in H as [H|H].
    + destruct o; cbn in H; try discriminate.
      * destruct (res (Get _ this)); discriminate.
      * congruence.
    + apply IH in H. rewrite H. apply macro_run_caption.
Qed.

End MacroFacts.

(** C2: each entry-appending macro invocation pushes exactly one entry at
    the end of [mContents] and touches nothing else; a body of such
    invocations pushes one entry per invocation, the i-th entry being the one
    the i-th invocation pushes, and [Get()] on the unpopulated table returns
    them in that order (followed by the entry [END_POPUP_MENU] adds). *)
Theorem macros_append_in_declaration_order
    (My : string) (body : list MacroCall) (this : PopupMenuTable)
    (Hbody : Forall (fun m => appending m = true) body) :
  (forall m : MacroCall,
     appending m = true ->
     exists e : Entry.t,
       forall t : PopupMenuTable,
         expand My m t = MkTable (mContents t ++ [e]) (mCaption t))
  /\ mContents (run_body My body this) = mContents this ++ declared My body
  /\ length (declared My body) = length body
  /\ (forall (i : nat) (m : MacroCall),
        body !! i = Some m ->
        exists e : Entry.t,
          declared My body !! i = Some e
          /\ forall t : PopupMenuTable,
               mContents (expand My m t) = mContents t ++ [e])
  /\ (mContents this = [] ->
      res (Get (BEGIN_POPUP_MENU My body) this)
      = inr (declared My body ++ [sentinel])).
Proof.
  destruct (declared_lookup My body Hbody) as [Hlen Hlook].
  split; [|split; [|split; [|split]]].
  - intros m Hm. destruct (appended_one My m Hm) as [e He].
    exists e. intros t. rewrite expand_appended, He. reflexivity.
  - rewrite run_body_declared. reflexivity.
  - exact Hlen.
  - intros i m Hi. destruct (Hlook i m Hi) as (e & Hd & He).
    exists e. split; [exact Hd|].
    intros t. rewrite expand_appended, He. reflexivity.
  - intros He. apply macro_Get. left. exact He.
Qed.

Lemma macros_append_in_declaration_order_witness :
  let body :=
    [POPUP_MENU_ITEM "Cut" 7 "Cu&t" "OnCutSelectedText";
     BEGIN_POPUP_MENU_SECTION "Rates";
     POPUP_MENU_RADIO_ITEM "Rate" 8 "&Rate" "OnRate";
     POPUP_MENU_SUB_MENU "More" (MkTableClass (MkTable [] "More") 4096%N)] in
  Forall (fun m => appending m = true) body
  /\ res (Get (BEGIN_POPUP_MENU "MyTable" body)
              (PopupMenuTable_ctor "MyTable" ""))
     = inr [Entry.Build Entry.Item 7 "Cu&t"
              (Some (MkMemFn "MyTable" "OnCutSelectedText")) None;
            Entry.Build Entry.Separator (-1) "" None None;
            Entry.Build Entry.RadioItem 8 "&Rate"
              (Some (MkMemFn "MyTable" "OnRate")) None;
            Entry.Build Entry.SubMenu (-1) "More" None (Some 4096%N);
            sentinel].
Proof.
  intros body.
  assert (Hbody : Forall (fun m => appending m = true) body)
    by (repeat constructor).
  split; [exact Hbody|].
  apply (macros_append_in_declaration_order "MyTable" body
           (PopupMenuTable_ctor "MyTable" "") Hbody).
  reflexivity.
Defined.

(** C8: a [Populate()] written with [BEGIN_POPUP_MENU] ... [END_POPUP_MENU]
    pushes the declared entries and then the sentinel, whose kind is
    [Invalid], id -1, caption empty, callback and subtable null.  On every
    state the table reaches, [Get()] returns the declared entries, all valid
    and in declaration order, followed by that sentinel: a non-empty vector
    whose last element fails [IsValid()]. *)
Theorem macro_table_ends_with_sentinel
    (My : string) (body : list MacroCall) (this : PopupMenuTable)
    (Hreach : reachable (BEGIN_POPUP_MENU My body) this) :
  (forall t : PopupMenuTable,
     BEGIN_POPUP_MENU My body t
     = (None,
        MkTable (mContents t ++ declared My body ++ [sentinel])
                (mCaption t)))
  /\ (Entry.type sentinel = Entry.Invalid
      /\ Entry.id sentinel = -1
      /\ Entry.caption sentinel = ""
      /\ Entry.func sentinel = nullptr
      /\ Entry.subTable sentinel = nullptr
      /\ Entry.IsValid sentinel = false)
  /\ (exists es : Entries,
        res (Get (BEGIN_POPUP_MENU My body) this) = inr es
        /\ es <> []
        /\ last es = Some sentinel
        /\ es = declared My body ++ [sentinel]
        /\ Forall (fun e => Entry.IsValid e = true) (declared My body)).
Proof.
  split; [|split].
  - apply BEGIN_POPUP_MENU_declared.
  - repeat split.
  - exists (declared My body ++ [sentinel]).
    split; [|split; [|split; [|split]]].
    + apply macro_Get, macro_table_states, Hreach.
    + intros Hnil. apply app_eq_nil in Hnil as [_ Hnil]. discriminate.
    + apply last_snoc.
    + reflexivity.
    + apply declared_valid.
Qed.

Lemma macro_table_ends_with_sentinel_witness :
  let body :=
    [POPUP_MENU_CHECK_ITEM "Mute" 3 "&Mute" "OnMute"; END_POPUP_MENU_SECTION] in
  let P := BEGIN_POPUP_MENU "MyTable" body in
  let this :=
    obj (run P OpClear (obj (run P OpGet (PopupMenuTable_ctor "MyTable" "")))) in
  reachable P this
  /\ exists es : Entries,
       res (Get P this) = inr es /\ last es = Some sentinel.
Proof.
  intros body P this.
  assert (Hreach : reachable P this).
  { apply reach_step, reach_step, reach_ctor. }
  split; [exact Hreach|].
  destruct (macro_table_ends_with_sentinel "MyTable" body this Hreach)
    as (_ & _ & es & Hres & _ & Hlast & _).
  exists es. split; assumption.
Defined.

(** C10: for a macro-written table, neither [Get()] (with the [Populate()]
    it may run) nor [Clear()] writes [mCaption]: after any sequence of calls
    [Caption()] returns what it returned before, which for a constructed
    table is the caption given to the constructor, and so does every
    [Caption()] call made along the way. *)
Theorem Caption_is_the_constructed_one
    (My : string) (body : list MacroCall) (ops : list Op)
    (this : PopupMenuTable) (id : Identifier) (c : TranslatableString) :
  let P := BEGIN_POPUP_MENU My body in
  Caption (obj (Get P this)) = Caption this
  /\ Caption (Clear this) = Caption this
  /\ Caption (run_all P ops this) = Caption this
  /\ Caption (run_all P ops (PopupMenuTable_ctor id c)) = c
  /\ (forall c' : TranslatableString,
        inr (VCaption c') ∈ observe P ops (PopupMenuTable_ctor id c) ->
        c' = c).
Proof.
  cbn zeta. split; [|split; [|split; [|split]]].
  - apply (macro_run_caption My body OpGet).
  - reflexivity.
  - apply macro_run_all_caption.
  - rewrite macro_run_all_caption. reflexivity.
  - intros c' Hin. apply macro_observe_caption in Hin. exact Hin.
Qed.

(** C7, as amended: the operations have no failure branch of their own, but
    [Get()] passes on what [Populate()] throws.  A call ends in an exception
    exactly when it is [Get()] on an unpopulated table whose [Populate()]
    throws that exception.  So [Caption()] and [Clear()] always return,
    [Get()] returns whenever the vector is already populated or the
    [Populate()] it runs returns, and with a macro-written [Populate()] every
    call returns. *)
Theorem operations_never_fail_themselves
    (Populate : PopulateBody) (o : Op) (this : PopupMenuTable) :
  (forall e : exception,
     res (run Populate o this) = inl e <->
     o = OpGet /\ mContents this = [] /\ (Populate this).1 = Some e)
  /\ (res (run Populate OpCaption this) = inr (VCaption (mCaption this)))
  /\ (res (run Populate OpClear this) = inr VVoid)
  /\ (mContents this <> [] \/ (Populate this).1 = None ->
      exists es : Entries, res (Get Populate this) = inr es)
  /\ (forall (My : string) (body : list MacroCall),
        exists v : Value,
          res (run (BEGIN_POPUP_MENU My body) o this) = inr v).
Proof.
  split; [|split; [|split; [|split]]].
  - intros e. split.
    + destruct o; cbn; try discriminate.
      destruct (decide (mContents this = [])) as [He|Hne].
      * rewrite (Get_empty _ _ He). cbn.
        destruct (Populate this).1 as [e'|]; [|discriminate].
        intros [= <-]. auto.
      * rewrite (Get_nonempty _ _ Hne). discriminate.
    + intros (-> & He & Hthrow). cbn.
      rewrite (Get_empty _ _ He), Hthrow. reflexivity.
  - reflexivity.
  - reflexivity.
  - destruct (decide (mContents this = [])) as [He|Hne].
    + intros [Hne|Hok]; [contradiction|].
      rewrite (Get_empty _ _ He), Hok. cbn. eauto.
    + intros _. rewrite (Get_nonempty _ _ Hne). cbn. eauto.
  - intros My body. destruct o; cbn; eauto.
    destruct (decide (mContents this = [])) as [He|Hne].
    + rewrite (Get_empty _ _ He), BEGIN_POPUP_MENU_declared. cbn. eauto.
    + rewrite (Get_nonempty _ _ Hne). cbn. eauto.
Qed.

(** C7, as stated, fails: it is not so that [Get()], [Caption()] and
    [Clear()] return for every table and every state.  On a new table whose
    [Populate()] throws, [Get()] ends in that exception. *)
Lemma Get_can_end_in_an_exception :
  res (run (fun t => (Some "boom", t)) OpGet (PopupMenuTable_ctor "T" ""))
  = inl "boom"
  /\ ~ (forall (Populate : PopulateBody) (o : Op) (this : PopupMenuTable),
         exists v : Value, res (run Populate o this) = inr v).
Proof.
  split; [reflexivity|].
  intros Hall.
  destruct (Hall (fun t => (Some "boom", t)) OpGet
              (PopupMenuTable_ctor "T" "")) as [v Hv].
  discriminate Hv.
Qed.

(** ** Menus *)

Lemma append_entry_rows (menu : Menu) (e : Entry.t) :
  append_entry menu e
  = MkMenu (rows menu ++ row_of e) (bound menu ++ bound_of e).
Proof.
  unfold row_of, bound_of, append_entry.
  destruct menu as [rs bs].
  destruct (Entry.type e); cbn; rewrite ?app_nil_r; reflexivity.
Qed.

Lemma fold_append_entry (es : Entries) (menu : Menu) :
  foldl append_entry menu es
  = MkMenu (rows menu ++ concat (map row_of es))
           (bound menu ++ concat (map bound_of es)).
Proof.
  revert menu. induction es as [|e es IH]; intros menu; cbn.
  - rewrite !app_nil_r. destruct menu; reflexivity.
  - rewrite IH, append_entry_rows. cbn. rewrite <- !app_assoc. reflexivity.
Qed.

Lemma ExtendMenu_rows (Populate : PopulateBody) (menu menu' : Menu)
    (otherTable : PopupMenuTable) :
  res (ExtendMenu Populate menu otherTable) = inr menu' ->
  exists es : Entries,
    res (Get Populate otherTable) = inr es
    /\ menu' = MkMenu (rows menu ++ concat (map row_of es))
                      (bound menu ++ concat (map bound_of es)).
Proof.
  unfold ExtendMenu.
  destruct (res (Get Populate otherTable)) as [e|es]; cbn; [discriminate|].
  intros [= <-]. exists es. split; [reflexivity | apply fold_append_entry].
Qed.

Lemma ExtendMenu_returns (Populate : PopulateBody) (menu : Menu)
    (otherTable : PopupMenuTable) (es : Entries) :
  res (Get Populate otherTable) = inr es ->
  res (ExtendMenu Populate menu otherTable)
  = inr (foldl append_entry menu es).
Proof. unfold ExtendMenu. intros ->. reflexivity. Qed.

(** C3: [ExtendMenu], given a menu that [BuildMenu] built from a first
    table, returns a menu whose rows are the rows already there, unchanged
    and in the same order, followed by the rows of the other table's entries
    in list order; likewise for the registered callbacks. *)
Theorem ExtendMenu_appends_after_existing
    (Populate1 Populate2 : PopulateBody) (pTable otherTable : PopupMenuTable)
    (menu menu' : Menu)
    (Hbuilt : res (BuildMenu Populate1 pTable) = inr menu)
    (Hext : res (ExtendMenu Populate2 menu otherTable) = inr menu') :
  exists es1 es2 : Entries,
    res (Get Populate1 pTable) = inr es1
    /\ res (Get Populate2 otherTable) = inr es2
    /\ rows menu = concat (map row_of es1)
    /\ rows menu' = rows menu ++ concat (map row_of es2)
    /\ bound menu' = bound menu ++ concat (map bound_of es2)
    /\ (forall (i : nat) (r : MenuRow),
          rows menu !! i = Some r -> rows menu' !! i = Some r)
    /\ (forall (i : nat) (r : MenuRow),
          concat (map row_of es2) !! i = Some r ->
          rows menu' !! (length (rows menu) + i)%nat = Some r).
Proof.
  apply ExtendMenu_rows in Hbuilt as (es1 & Hg1 & ->).
  apply ExtendMenu_rows in Hext as (es2 & Hg2 & ->).
  exists es1, es2. cbn.
  split; [exact Hg1|]. split; [exact Hg2|].
  split; [reflexivity|]. split; [reflexivity|]. split; [reflexivity|].
  split.
  - intros i r Hi. apply lookup_app_l_Some. exact Hi.
  - intros i r Hi. rewrite lookup_app_r by lia.
    replace (length (concat (map row_of es1)) + i
             - length (concat (map row_of es1)))%nat with i by lia.
    exact Hi.
Qed.

Lemma ExtendMenu_appends_after_existing_witness :
  let P1 :=
    BEGIN_POPUP_MENU "MyTable"
      [POPUP_MENU_ITEM "Cut" 7 "Cu&t" "OnCutSelectedText"] in
  let P2 :=
    BEGIN_POPUP_MENU "OtherTable"
      [BEGIN_POPUP_MENU_SECTION "Extra";
       POPUP_MENU_CHECK_ITEM "Mute" 3 "&Mute" "OnMute"] in
  let menu := MkMenu [RowItem 7 "Cu&t"]
                     [(7, Some (MkMemFn "MyTable" "OnCutSelectedText"))] in
  let menu' :=
    MkMenu [RowItem 7 "Cu&t"; RowSeparator; RowCheckItem 3 "&Mute"]
           [(7, Some (MkMemFn "MyTable" "OnCutSelectedText"));
            (3, Some (MkMemFn "OtherTable" "OnMute"))] in
  res (BuildMenu P1 (PopupMenuTable_ctor "MyTable" "")) = inr menu
  /\ res (ExtendMenu P2 menu (PopupMenuTable_ctor "OtherTable" "")) = inr menu'
  /\ rows menu' !! 0%nat = Some (RowItem 7 "Cu&t").
Proof.
  intros P1 P2 menu menu'.
  assert (Hbuilt :
    res (BuildMenu P1 (PopupMenuTable_ctor "MyTable" "")) = inr menu)
    by reflexivity.
  assert (Hext :
    res (ExtendMenu P2 menu (PopupMenuTable_ctor "OtherTable" "")) = inr menu')
    by reflexivity.
  split; [exact Hbuilt|]. split; [exact Hext|].
  destruct (ExtendMenu_appends_after_existing P1 P2 _ _ menu menu' Hbuilt Hext)
    as (es1 & es2 & _ & _ & _ & _ & _ & Hkeep & _).
  apply Hkeep. reflexivity.
Defined.

(** ** Concrete runs *)

Lemma Get_populates_lazily_witness :
  let P :=
    BEGIN_POPUP_MENU "MyTable"
      [POPUP_MENU_ITEM "Cut" 7 "Cu&t" "OnCutSelectedText"] in
  let this := PopupMenuTable_ctor "MyTable" "" in
  mContents this = []
  /\ populate_calls (Get P this) = 1%nat
  /\ populate_calls (Get P (obj (Get P this))) = 0%nat.
Proof.
  intros P this.
  assert (He : mContents this = []) by reflexivity.
  split; [exact He|]. split.
  - apply (Get_populates_lazily P this). exact He.
  - apply (Get_populates_lazily P (obj (Get P this))). discriminate.
Defined.

Lemma entries_change_only_wholesale_witness :
  let P :=
    BEGIN_POPUP_MENU "MyTable"
      [POPUP_MENU_ITEM "Cut" 7 "Cu&t" "OnCutSelectedText"] in
  let this := obj (Get P (PopupMenuTable_ctor "MyTable" "")) in
  let e := Entry.Build Entry.Item 7 "Cu&t"
             (Some (MkMemFn "MyTable" "OnCutSelectedText")) None in
  OpGet <> OpClear
  /\ mContents this !! 0%nat = Some e
  /\ mContents (obj (run P OpGet this)) !! 0%nat = Some e.
Proof.
  intros P this e.
  assert (Hop : OpGet <> OpClear) by discriminate.
  assert (Hi : mContents this !! 0%nat = Some e) by reflexivity.
  split; [exact Hop|]. split; [exact Hi|].
  destruct (entries_change_only_wholesale P OpGet this) as (_ & Hkeep & _).
  exact (Hkeep Hop 0%nat e Hi).
Defined.

Lemma operations_never_fail_themselves_witness :
  let P : PopulateBody :=
    fun this => (Some "bad_function_call", push_back sentinel this) in
  let this := PopupMenuTable_ctor "Broken" "" in
  res (run P OpGet this) = inl "bad_function_call"
  /\ OpGet = OpGet /\ mContents this = []
  /\ (P this).1 = Some "bad_function_call".
Proof.
  intros P this.
  assert (Hres : res (run P OpGet this) = inl "bad_function_call")
    by reflexivity.
  split; [exact Hres|].
  destruct (operations_never_fail_themselves P OpGet this) as (Hown & _).
  exact (proj1 (Hown "bad_function_call") Hres).
Defined.

Lemma Caption_is_the_constructed_one_witness :
  let P :=
    BEGIN_POPUP_MENU "MyTable"
      [POPUP_MENU_ITEM "Cut" 7 "Cu&t" "OnCutSelectedText"] in
  let ops := [OpGet; OpCaption; OpClear; OpCaption; OpGet] in
  inr (VCaption "Edit") ∈ observe P ops (PopupMenuTable_ctor "MyTable" "Edit")
  /\ Caption (run_all P ops (PopupMenuTable_ctor "MyTable" "Edit")) = "Edit".
Proof.
  intros P ops. split.
  - cbn. apply list_elem_of_further, list_elem_of_here.
  - destruct (Caption_is_the_constructed_one "MyTable"
                [POPUP_MENU_ITEM "Cut" 7 "Cu&t" "OnCutSelectedText"]
                ops (PopupMenuTable_ctor "MyTable" "Edit") "MyTable" "Edit")
      as (_ & _ & _ & Hc & _).
    exact Hc.
Defined.

(** * Further properties of the header's code *)

(** ** The classifiers together *)

(** X1: the three classifiers split the kinds: no entry is both an item and
    a submenu, every item and every submenu is valid, and a valid entry that
    is neither is a separator. *)
Theorem classifiers_partition (e : Entry.t) :
  Entry.IsItem e && Entry.IsSubMenu e = false
  /\ implb (Entry.IsItem e || Entry.IsSubMenu e) (Entry.IsValid e) = true
  /\ Entry.IsValid e && negb (Entry.IsItem e) && negb (Entry.IsSubMenu e)
     = bool_decide (Entry.type e = Entry.Separator).
Proof.
  unfold Entry.IsItem, Entry.IsSubMenu, Entry.IsValid.
  destruct (Entry.type e); repeat split.
Qed.

(** ** Populate() bodies that push nothing, or throw *)

Lemma Get_void_Populate (Populate : PopulateBody) (this : PopupMenuTable) :
  mContents this = [] -> mContents (Populate this).2 = [] ->
  populate_calls (Get Populate this) = 1%nat
  /\ mContents (obj (Get Populate this)) = [].
Proof.
  intros He Hv. rewrite (Get_empty _ _ He). cbn. auto.
Qed.

(** X4: [Get()] does not remember that it has populated: when the
    [Populate()] override leaves an empty vector empty, each of n successive
    [Get()] calls dispatches to it again, and a call whose [Populate()]
    returns hands back the empty vector. *)
Theorem void_Populate_is_rerun
    (Populate : PopulateBody) (this : PopupMenuTable) (n : nat)
    (Hvoid : forall t : PopupMenuTable,
       mContents t = [] -> mContents (Populate t).2 = [])
    (Hempty : mContents this = []) :
  total_calls Populate (replicate n OpGet) this = n
  /\ mContents (run_all Populate (replicate n OpGet) this) = []
  /\ ((Populate this).1 = None -> res (Get Populate this) = inr []).
Proof.
  split; [|split].
  - revert this Hempty. induction n as [|n IH]; intros this He; cbn.
    + reflexivity.
    + destruct (Get_void_Populate Populate this He (Hvoid _ He)) as [Hc Hm].
      rewrite Hc, (IH _ Hm). reflexivity.
  - revert this Hempty. induction n as [|n IH]; intros this He; cbn.
    + exact He.
    + apply IH.
      apply (Get_void_Populate Populate this He (Hvoid _ He)).
  - intros Hok. rewrite (Get_empty _ _ Hempty), Hok. cbn.
    rewrite (Hvoid _ Hempty). reflexivity.
Qed.

Lemma void_Populate_is_rerun_witness :
  let P : PopulateBody := fun t => (None, t) in
  let this := PopupMenuTable_ctor "Bare" "" in
  (forall t : PopupMenuTable, mContents t = [] -> mContents (P t).2 = [])
  /\ mContents this = []
  /\ total_calls P (replicate 3 OpGet) this = 3%nat.
Proof.
  intros P this.
  assert (Hvoid : forall t : PopupMenuTable,
            mContents t = [] -> mContents (P t).2 = [])
    by (intros t Ht; exact Ht).
  assert (He : mContents this = []) by reflexivity.
  split; [exact Hvoid|]. split; [exact He|].
  apply (void_Populate_is_rerun P this 3 Hvoid He).
Defined.

(** X5: [Get()] has no handler around [Populate()].  When [Populate()]
    throws on an unpopulated table, [Get()] ends in that exception and the
    entries pushed so far stay; the next [Get()] populates again exactly when
    nothing had been pushed, and otherwise returns the partial vector as it
    is. *)
Theorem thrown_Populate_is_not_undone
    (Populate : PopulateBody) (this : PopupMenuTable) (e : exception)
    (Hempty : mContents this = [])
    (Hthrow : (Populate this).1 = Some e) :
  let partial := mContents (Populate this).2 in
  res (Get Populate this) = inl e
  /\ obj (Get Populate this) = (Populate this).2
  /\ (populate_calls (Get Populate (obj (Get Populate this))) = 0%nat
      <-> partial <> [])
  /\ (partial <> [] ->
      Get Populate (obj (Get Populate this))
      = MkOutcome (inr partial) (Populate this).2 0).
Proof.
  cbn zeta. rewrite (Get_empty _ _ Hempty), Hthrow. cbn.
  split; [reflexivity|]. split; [reflexivity|]. split.
  - rewrite Get_calls, <- empty_false.
    destruct (empty (mContents (Populate this).2)); split; congruence.
  - apply Get_nonempty.
Qed.

Lemma thrown_Populate_is_not_undone_witness :
  let first := Entry.Build Entry.Item 7 "Cu&t"
                 (Some (MkMemFn "MyTable" "OnCutSelectedText")) None in
  let P : PopulateBody := fun t => (Some "length_error", push_back first t) in
  let this := PopupMenuTable_ctor "MyTable" "" in
  mContents this = []
  /\ (P this).1 = Some "length_error"
  /\ res (Get P this) = inl "length_error"
  /\ Get P (obj (Get P this)) = MkOutcome (inr [first]) (MkTable [first] "") 0.
Proof.
  intros first P this.
  assert (He : mContents this = []) by reflexivity.
  assert (Ht : (P this).1 = Some "length_error") by reflexivity.
  split; [exact He|]. split; [exact Ht|].
  destruct (thrown_Populate_is_not_undone P this "length_error" He Ht)
    as (Hres & _ & _ & Hnext).
  split; [exact Hres|].
  apply Hnext. discriminate.
Defined.

(** ** How often Populate() runs *)

Lemma total_calls_bound (Populate : PopulateBody)
    (Hfill : forall t : PopupMenuTable, mContents (Populate t).2 <> [])
    (ops : list Op) (this : PopupMenuTable) :
  (total_calls Populate ops this
   <= (if empty (mContents this) then 1 else 0)
      + length (filter (fun o => o = OpClear) ops))%nat.
Proof.
  revert this. induction ops as [|o ops IH]; intros this.
  - cbn. lia.
  - destruct o.
    + rewrite filter_cons_False by discriminate.
      cbn [total_calls run obj populate_calls].
      destruct (decide (mContents this = [])) as [He|Hne].
      * rewrite (Get_empty _ _ He). cbn [obj populate_calls].
        specialize (IH (Populate this).2).
        pose proof (Hfill this) as Hf. apply empty_false in Hf.
        rewrite Hf in IH. apply empty_true in He. rewrite He. lia.
      * rewrite (Get_nonempty _ _ Hne). cbn [obj populate_calls]. apply IH.
    + rewrite filter_cons_False by discriminate.
      cbn [total_calls run obj populate_calls]. apply IH.
    + rewrite filter_cons_True by reflexivity.
      cbn [total_calls run obj populate_calls length].
      specialize (IH (Clear this)). cbn [Clear mContents empty] in IH.
      destruct (empty (mContents this)); lia.
Qed.

Lemma total_calls_no_Clear (Populate : PopulateBody)
    (Hfill : forall t : PopupMenuTable, mContents (Populate t).2 <> [])
    (ops : list Op) (this : PopupMenuTable) :
  OpClear ∉ ops ->
  total_calls Populate ops this
  = if empty (mContents this) && bool_decide (OpGet ∈ ops)
    then 1%nat else 0%nat.
Proof.
  revert this. induction ops as [|o ops IH]; intros this Hnc; cbn.
  - rewrite andb_false_r. reflexivity.
  - apply not_elem_of_cons in Hnc as [Hne Hnc].
    destruct o; cbn; [| |congruence].
    + rewrite (bool_decide_eq_true_2 (OpGet ∈ OpGet :: ops))
        by apply list_elem_of_here.
      rewrite andb_true_r.
      destruct (decide (mContents this = [])) as [He|Hn].
      * rewrite (Get_empty _ _ He). cbn.
        rewrite (IH _ Hnc).
        pose proof (Hfill this) as Hf. apply empty_false in Hf.
        rewrite Hf. apply empty_true in He. rewrite He. reflexivity.
      * rewrite (Get_nonempty _ _ Hn). cbn. rewrite (IH _ Hnc).
        apply empty_false in Hn. rewrite Hn. reflexivity.
    + rewrite (IH _ Hnc).
      rewrite (bool_decide_ext (OpGet ∈ OpCaption :: ops) (OpGet ∈ ops));
        [reflexivity|].
      rewrite elem_of_cons. split; [|auto]. intros [?|?]; [discriminate|auto].
Qed.

(** X6: when the [Populate()] override always leaves entries behind, the
    vector is built at most once between two [Clear()] calls: over any
    sequence of calls the dispatches number at most one (if the table starts
    unpopulated) plus the number of [Clear()] calls, and without a [Clear()]
    they number exactly one if the table starts unpopulated and [Get()] is
    called at all, and none otherwise. *)
Theorem Populate_runs_once_between_Clears
    (Populate : PopulateBody) (ops : list Op) (this : PopupMenuTable)
    (Hfill : forall t : PopupMenuTable, mContents (Populate t).2 <> []) :
  (total_calls Populate ops this
   <= (if empty (mContents this) then 1 else 0)
      + length (filter (fun o => o = OpClear) ops))%nat
  /\ (OpClear ∉ ops ->
      total_calls Populate ops this
      = if empty (mContents this) && bool_decide (OpGet ∈ ops)
        then 1%nat else 0%nat).
Proof.
  split.
  - apply total_calls_bound, Hfill.
  - apply total_calls_no_Clear, Hfill.
Qed.

Lemma Populate_runs_once_between_Clears_witness :
  let P :=
    BEGIN_POPUP_MENU "MyTable"
      [POPUP_MENU_ITEM "Cut" 7 "Cu&t" "OnCutSelectedText"] in
  let ops := [OpGet; OpGet; OpClear; OpCaption; OpGet; OpGet] in
  (forall t : PopupMenuTable, mContents (P t).2 <> [])
  /\ total_calls P ops (PopupMenuTable_ctor "MyTable" "") = 2%nat
  /\ (total_calls P ops (PopupMenuTable_ctor "MyTable" "") <= 1 + 1)%nat.
Proof.
  intros P ops.
  assert (Hfill : forall t : PopupMenuTable, mContents (P t).2 <> []).
  { intros [v c]. destruct v; cbn; discriminate. }
  split; [exact Hfill|]. split; [reflexivity|].
  apply (Populate_runs_once_between_Clears P ops
           (PopupMenuTable_ctor "MyTable" "") Hfill).
Defined.

(** ** What the macros write *)

Section MacroShape.

Variable My : string.

Lemma appended_shaped (m : MacroCall) (e : Entry.t) :
  e ∈ appended My m -> macro_shaped My e.
Proof.
  destruct m; cbn; intros Hin;
    try (apply list_elem_of_singleton in Hin; subst e);
    try (inversion Hin; fail);
    unfold macro_shaped; cbn; repeat split; try discriminate; eauto.
Qed.

Lemma declared_shaped (body : list MacroCall) (e : Entry.t) :
  e ∈ declared My body -> macro_shaped My e.
Proof.
  unfold declared. induction body as [|m body IH]; cbn; intros Hin.
  - inversion Hin.
  - apply elem_of_app in Hin as [Hin|Hin].
    + exact (appended_shaped m e Hin).
    + exact (IH Hin).
Qed.

Lemma sentinel_shaped : macro_shaped My sentinel.
Proof. unfold macro_shaped; cbn; repeat split; discriminate. Qed.

Lemma declared_filter (body : list MacroCall) :
  declared My (filter (fun m => appending m = true) body) = declared My body.
Proof.
  unfold declared. induction body as [|m body IH]; [reflexivity|].
  destruct m;
    try (rewrite filter_cons_True by reflexivity; cbn; rewrite IH;
         reflexivity).
  rewrite filter_cons_False by discriminate. cbn. exact IH.
Qed.

Lemma declared_length (body : list MacroCall) :
  length (declared My body)
  = length (filter (fun m => appending m = true) body).
Proof.
  unfold declared. induction body as [|m body IH]; [reflexivity|].
  destruct m;
    try (rewrite filter_cons_True by reflexivity; cbn; rewrite IH;
         reflexivity).
  rewrite filter_cons_False by discriminate. cbn. exact IH.
Qed.

Lemma declared_no_invalid (body : list MacroCall) :
  list_find (fun e => Entry.IsValid e = false) (declared My body) = None.
Proof.
  apply list_find_None.
  eapply Forall_impl; [apply declared_valid|].
  cbn. intros e Hv. rewrite Hv. discriminate.
Qed.

End MacroShape.

(** X2: every entry that [Get()] returns for a macro-written table of handler
    class [My] has the macros' shape: an item is bound to a member function
    of [My] and has no subtable; a submenu has a subtable, no callback and
    id -1; separators and the sentinel have no callback, no subtable and
    id -1. *)
Theorem macro_entries_are_shaped
    (My : string) (body : list MacroCall) (this : PopupMenuTable)
    (es : Entries) (e : Entry.t)
    (Hreach : reachable (BEGIN_POPUP_MENU My body) this)
    (Hres : res (Get (BEGIN_POPUP_MENU My body) this) = inr es)
    (Hin : e ∈ es) :
  macro_shaped My e.
Proof.
  rewrite (macro_Get My body this (macro_table_states My body this Hreach))
    in Hres.
  injection Hres as <-.
  apply elem_of_app in Hin as [Hin|Hin].
  - exact (declared_shaped My body e Hin).
  - apply list_elem_of_singleton in Hin. subst e. apply sentinel_shaped.
Qed.

Lemma macro_entries_are_shaped_witness :
  let body :=
    [POPUP_MENU_ITEM "Cut" 7 "Cu&t" "OnCutSelectedText";
     POPUP_MENU_SUB_MENU "More" (MkTableClass (MkTable [] "More") 4096%N)] in
  let P := BEGIN_POPUP_MENU "MyTable" body in
  let this := PopupMenuTable_ctor "MyTable" "" in
  let sub := Entry.Build Entry.SubMenu (-1) "More" None (Some 4096%N) in
  let es :=
    [Entry.Build Entry.Item 7 "Cu&t"
       (Some (MkMemFn "MyTable" "OnCutSelectedText")) None;
     sub; sentinel] in
  reachable P this
  /\ res (Get P this) = inr es
  /\ sub ∈ es
  /\ macro_shaped "MyTable" sub.
Proof.
  intros body P this sub es.
  assert (Hreach : reachable P this) by apply reach_ctor.
  assert (Hres : res (Get P this) = inr es) by reflexivity.
  assert (Hin : sub ∈ es)
    by apply list_elem_of_further, list_elem_of_here.
  split; [exact Hreach|]. split; [exact Hres|]. split; [exact Hin|].
  exact (macro_entries_are_shaped "MyTable" body this es sub Hreach Hres Hin).
Defined.

(** X3: [END_POPUP_MENU_SECTION()] expands to nothing: a body and the same
    body with those invocations left out define the same [Populate()], and
    [Get()] on a new table returns one entry per remaining invocation plus
    the sentinel. *)
Theorem END_POPUP_MENU_SECTION_is_void
    (My : string) (body : list MacroCall) (this : PopupMenuTable)
    (id : Identifier) (c : TranslatableString) :
  let kept := filter (fun m => appending m = true) body in
  BEGIN_POPUP_MENU My kept this = BEGIN_POPUP_MENU My body this
  /\ exists es : Entries,
       res (Get (BEGIN_POPUP_MENU My body) (PopupMenuTable_ctor id c))
       = inr es
       /\ length es = S (length kept).
Proof.
  cbn zeta. split.
  - rewrite !BEGIN_POPUP_MENU_declared, declared_filter. reflexivity.
  - exists (declared My body ++ [sentinel]). split.
    + apply macro_Get. left. reflexivity.
    + rewrite length_app, declared_length. cbn. lia.
Qed.

(** X7: in the vector [Get()] returns for a macro-written table, the
    sentinel is the first entry that fails [IsValid()] and the only one: a
    scan that stops at the first invalid entry stops at the index that equals
    the number of declared entries, having passed exactly those. *)
Theorem sentinel_is_first_invalid
    (My : string) (body : list MacroCall) (this : PopupMenuTable)
    (Hreach : reachable (BEGIN_POPUP_MENU My body) this) :
  exists es : Entries,
    res (Get (BEGIN_POPUP_MENU My body) this) = inr es
    /\ list_find (fun e => Entry.IsValid e = false) es
       = Some (length (declared My body), sentinel)
    /\ take (length (declared My body)) es = declared My body
    /\ (forall (i : nat) (e : Entry.t),
          es !! i = Some e ->
          (Entry.IsValid e = false <-> i = length (declared My body))).
Proof.
  exists (declared My body ++ [sentinel]).
  split; [|split; [|split]].
  - apply macro_Get, macro_table_states, Hreach.
  - apply list_find_app_Some. right.
    split; [lia|]. split; [apply declared_no_invalid|].
    rewrite Nat.sub_diag. reflexivity.
  - apply take_app_length.
  - intros i e Hi. apply lookup_app_Some in Hi as [Hi|[Hge Hi]].
    + pose proof (lookup_lt_Some _ _ _ Hi) as Hlt.
      pose proof (declared_valid My body) as Hv.
      rewrite Forall_lookup in Hv. specialize (Hv i e Hi). cbn in Hv.
      rewrite Hv. split; [discriminate | lia].
    + apply list_lookup_singleton_Some in Hi as [Hi <-].
      split; [lia | reflexivity].
Qed.

Lemma sentinel_is_first_invalid_witness :
  let body :=
    [POPUP_MENU_ITEM "Cut" 7 "Cu&t" "OnCutSelectedText";
     BEGIN_POPUP_MENU_SECTION "Rates";
     POPUP_MENU_RADIO_ITEM "Rate" 8 "&Rate" "OnRate";
     END_POPUP_MENU_SECTION] in
  let P := BEGIN_POPUP_MENU "MyTable" body in
  let this := obj (run P OpGet (PopupMenuTable_ctor "MyTable" "")) in
  reachable P this
  /\ exists es : Entries,
       res (Get P this) = inr es
       /\ list_find (fun e => Entry.IsValid e = false) es
          = Some (3%nat, sentinel).
Proof.
  intros body P this.
  assert (Hreach : reachable P this) by apply reach_step, reach_ctor.
  split; [exact Hreach|].
  destruct (sentinel_is_first_invalid "MyTable" body this Hreach)
    as (es & Hres & Hfind & _).
  exists es. split; [exact Hres | exact Hfind].
Defined.
